(** * StorageMergeTree: the merge tagger and the table's merge step

    A shallow embedding of [dbms/include/DB/Storages/StorageMergeTree.h].
    The header defines, in full, the scoped guard
    [CurrentlyMergingPartsTagger] (constructor and destructor) and
    [optimize]; it only declares [merge], [mergeTask] and [canMergeParts],
    and it uses [MergeTreeData], [MergeTreeDataMerger] and
    [DiskSpaceMonitor], whose headers are not part of the sources. *)

From stdpp Require Import base option list strings countable gmap sets fin_maps.
From Stdlib Require Import NArith.

Set Warnings "-clear-no-such-hyp".

Open Scope string_scope.
Open Scope list_scope.
Open Scope N_scope.

(** ** Data parts *)

(** Modelled from the spec: [MergeTreeData::DataPart] ([MergeTreeData.h] is
    not among the sources).  A part is an immutable value with a unique
    name, a covering range [range_begin, range_end), a byte size, a row
    count, a creation time and a partition key. *)
Record DataPart := mkDataPart {
  name          : string;
  range_begin   : N;
  range_end     : N;
  size_in_bytes : N;
  rows_count    : N;
  creation_time : N;
  partition_key : N
}.

#[global] Instance DataPart_eq_dec : EqDecision DataPart.
Proof. solve_decision. Defined.

Definition DataPart_to_fields (p : DataPart) : string * list N :=
  (name p, [range_begin p; range_end p; size_in_bytes p; rows_count p;
            creation_time p; partition_key p]).

Definition DataPart_of_fields (f : string * list N) : option DataPart :=
  match f with
  | (n, [b; e; s; r; c; k]) => Some (mkDataPart n b e s r c k)
  | _ => None
  end.

#[global] Instance DataPart_countable : Countable DataPart.
Proof.
  refine (inj_countable DataPart_to_fields DataPart_of_fields _).
  by intros [].
Defined.

(** [MergeTreeData::DataParts] is an ordered set of part pointers,
    [MergeTreeData::DataPartsVector] a vector of them. *)
Abbreviation DataParts := (gset DataPart).
Abbreviation DataPartsVector := (list DataPart).

(** Modelled from the spec: the lifecycle state of a part inside the
    table's part set. *)
Inductive PartState := Active | MergingIn | Outdated | Removed.

#[global] Instance PartState_eq_dec : EqDecision PartState.
Proof. solve_decision. Defined.

(** ** Exceptions *)

(** [LOGICAL_ERROR] is the code the header throws with; the other two kinds
    are the ones the spec names for a refused reservation and for a failed
    merge execution. *)
Inductive ErrorCode := LOGICAL_ERROR | InsufficientSpace | TransientIOFailure.

#[global] Instance ErrorCode_eq_dec : EqDecision ErrorCode.
Proof. solve_decision. Defined.

Record Exception := mkException {
  message : string;
  code    : ErrorCode
}.

#[global] Instance Exception_eq_dec : EqDecision Exception.
Proof. solve_decision. Defined.

(** ** Disk space monitor *)

Module DiskSpaceMonitor.

(** Modelled from the spec: [DiskSpaceMonitor] ([DiskSpaceMonitor.h] is not
    among the sources).  A reservation is a hold of [bytes] against a
    storage [path]; the monitor keeps the outstanding reservations, each
    under the handle its owner holds ([ReservationPtr]). *)
Record Reservation := mkReservation {
  path  : string;
  bytes : N
}.

(** Modelled from the spec: a [ReservationPtr] owns its reservation;
    when the pointer is destroyed the reservation is, and its hold ends. *)
Definition ReservationPtr := nat.

(** Modelled from the spec: the free space measured per storage path and
    the reservations that are outstanding. *)
Record t := mk {
  free_space  : gmap string N;
  outstanding : gmap nat Reservation
}.

(** Modelled from the spec: the free space currently measured for the
    filesystem backing [p]. *)
Definition getFreeSpace (d : t) (p : string) : N :=
  default 0 (free_space d !! p).

(** Modelled from the spec: the sum of the bytes held by the outstanding
    reservations on [p]. *)
Definition getReservedSpace (d : t) (p : string) : N :=
  map_fold (fun _ r acc => if decide (path r = p) then bytes r + acc else acc)
           0 (outstanding d).

(** Modelled from the spec: what is left of the free space once the
    outstanding holds are subtracted. *)
Definition getUnreservedFreeSpace (d : t) (p : string) : N :=
  getFreeSpace d p - getReservedSpace d p.

(** Modelled from the spec: the address of a newly allocated reservation,
    one no outstanding reservation lives at. *)
Definition new_handle (d : t) : ReservationPtr :=
  fresh (dom (outstanding d)).

(** Modelled from the spec: [reserve(path, bytes)] fails with
    InsufficientSpace if the unreserved remainder is smaller than the
    request, else returns a reservation tracking [(path, bytes)]. *)
Definition reserve (d : t) (p : string) (size : N)
  : Exception + (ReservationPtr * t) :=
  if getUnreservedFreeSpace d p <? size
  then inl (mkException ("Not enough free disk space to reserve on " +:+ p)
                        InsufficientSpace)
  else let h := new_handle d in
       inr (h, mk (free_space d) (<[h := mkReservation p size]> (outstanding d))).

(** Modelled from the spec: destroying a reservation subtracts its hold. *)
Definition release (d : t) (h : ReservationPtr) : t :=
  mk (free_space d) (delete h (outstanding d)).

End DiskSpaceMonitor.

(** ** The table object and its surroundings *)

(** Modelled from the spec: the part set owned by [MergeTreeData]
    ([MergeTreeData.h] is not among the sources): every part the table
    knows, with its lifecycle state, and whether merges are confined to one
    partition. *)
Record MergeTreeData := mkMergeTreeData {
  all_parts            : gmap DataPart PartState;
  partitioning_enabled : bool
}.

Definition active_parts (d : MergeTreeData) : DataParts :=
  dom (filter (fun kv => kv.2 = Active) (all_parts d)).

(** The members of [StorageMergeTree] that the merge step reads or writes.
    [currently_merging_mutex] has no field: a lock scope is the unit of
    atomicity here, every function below being one state transformer. *)
Record StorageMergeTree := mkStorageMergeTree {
  path              : string;
  table_name        : string;
  full_path         : string;
  data              : MergeTreeData;
  currently_merging : DataParts;
  shutdown_called   : bool
}.

(** One entry written by [tryLogCurrentException]. *)
Record LogEntry := mkLogEntry {
  log_where : string;
  log_what  : Exception
}.

(** The table together with the process-wide disk space monitor and the
    log. *)
Record World := mkWorld {
  storage : StorageMergeTree;
  disk    : DiskSpaceMonitor.t;
  log     : list LogEntry
}.

Definition with_currently_merging (w : World) (cm : DataParts) : World :=
  let s := storage w in
  mkWorld (mkStorageMergeTree (path s) (table_name s) (full_path s) (data s)
                              cm (shutdown_called s))
          (disk w) (log w).

Definition with_data (w : World) (d : MergeTreeData) : World :=
  let s := storage w in
  mkWorld (mkStorageMergeTree (path s) (table_name s) (full_path s) d
                              (currently_merging s) (shutdown_called s))
          (disk w) (log w).

Definition with_disk (w : World) (d : DiskSpaceMonitor.t) : World :=
  mkWorld (storage w) d (log w).

Definition with_log (w : World) (l : list LogEntry) : World :=
  mkWorld (storage w) (disk w) l.

Definition tagged (w : World) : DataParts := currently_merging (storage w).
Arguments tagged : simpl never.

(** ** CurrentlyMergingPartsTagger *)

(** While it exists, marks the parts as currently merging and holds the
    space reservation.  The [storage] reference is the table of the world
    the functions run in. *)
Record CurrentlyMergingPartsTagger := mkTagger {
  parts          : DataPartsVector;
  reserved_space : DiskSpaceMonitor.ReservationPtr
}.

(** The exception of line 118, with the message as the header spells it. *)
Definition tag_exception (part : DataPart) : Exception :=
  mkException
    ("Tagging alreagy tagged part " +:+ name part +:+ ". This is a bug.")
    LOGICAL_ERROR.

(** The exception of line 131. *)
Definition untag_exception (part : DataPart) : Exception :=
  mkException
    ("Untagging already untagged part " +:+ name part +:+ ". This is a bug.")
    LOGICAL_ERROR.

(** The loop of lines 115-119: the first part already in the set throws. *)
Fixpoint check_not_tagged (cm : DataParts) (ps : DataPartsVector)
  : option Exception :=
  match ps with
  | [] => None
  | part :: rest =>
      if decide (part ∈ cm)
      then Some (tag_exception part)
      else check_not_tagged cm rest
  end.

(** The constructor.  It returns the world it leaves behind and either the
    exception it throws or the guard.  A throw from the body destroys the
    members built so far, so a reservation already taken is dropped. *)
Definition CurrentlyMergingPartsTagger_ctor
    (parts_ : DataPartsVector) (total_size : N) (w : World)
  : World * (Exception + CurrentlyMergingPartsTagger) :=
  match DiskSpaceMonitor.reserve (disk w) (full_path (storage w)) total_size with
  | inl e => (w, inl e)
  | inr (h, d1) =>
      let w1 := with_disk w d1 in
      match check_not_tagged (tagged w1) parts_ with
      | Some e => (with_disk w1 (DiskSpaceMonitor.release (disk w1) h), inl e)
      | None =>
          (with_currently_merging w1 (tagged w1 ∪ list_to_set parts_),
           inr (mkTagger parts_ h))
      end
  end.

(** The loop of lines 128-133, the body of the [try] block: it erases the
    parts in order and throws at the first one that is not in the set. *)
Fixpoint untag_parts (cm : DataParts) (ps : DataPartsVector)
  : DataParts * option Exception :=
  match ps with
  | [] => (cm, None)
  | part :: rest =>
      if decide (part ∈ cm)
      then untag_parts (cm ∖ {[ part ]}) rest
      else (cm, Some (untag_exception part))
  end.

Definition tryLogCurrentException (where_ : string) (e : Exception) (w : World)
  : World :=
  with_log w (log w ++ [mkLogEntry where_ e]).

(** The destructor: the [try] block, the [catch (...)] that logs, and then
    the destruction of the members, which drops the reservation. *)
Definition CurrentlyMergingPartsTagger_dtor
    (t : CurrentlyMergingPartsTagger) (w : World) : World :=
  let '(cm, thrown) := untag_parts (tagged w) (parts t) in
  let w1 := with_currently_merging w cm in
  let w2 := match thrown with
            | Some e => tryLogCurrentException "~CurrentlyMergingPartsTagger" e w1
            | None => w1
            end in
  with_disk w2 (DiskSpaceMonitor.release (disk w2) (reserved_space t)).

(** ** canMergeParts, merge and optimize *)

(** Modelled from the spec: [StorageMergeTree::canMergeParts] (declared at
    line 164; its body is not among the sources).  True iff [right]
    immediately follows [left] with no range gap, neither is tagged, and,
    when partitioning is enabled, both share the partition key. *)
Definition canMergeParts (w : World) (left right : DataPart) : bool :=
  bool_decide (range_end left = range_begin right)
  && bool_decide (left ∉ tagged w)
  && bool_decide (right ∉ tagged w)
  && (if partitioning_enabled (data (storage w))
      then bool_decide (partition_key left = partition_key right)
      else true).

(** The ranges of two parts, as the spec's testable property speaks of
    them. *)
Definition range_gap (left right : DataPart) : Prop :=
  range_end left < range_begin right.

Definition range_overlap (left right : DataPart) : Prop :=
  range_begin left < range_end right ∧ range_begin right < range_end left.

(** Modelled from the spec: the atomic replace-N-with-1 commit of the part
    set owner: the old parts turn Outdated and the new part turns Active in
    one step. *)
Definition replaceParts (d : MergeTreeData) (old : DataPartsVector)
    (new_part : DataPart) : MergeTreeData :=
  mkMergeTreeData
    (<[new_part := Active]>
       (foldr (fun p m => <[p := Outdated]> m) (all_parts d) old))
    (partitioning_enabled d).

(** [BackgroundProcessingPool::Context], opaque to the merge step. *)
Inductive PoolContext := mkPoolContext.

Section Controller.

(** The collaborators whose code is not among the sources: the selector
    [select(activeParts, taggedParts, aggressive)], the size estimate the
    guard is built with, and the executor that produces the new part or
    fails. *)
Variable selectPartsToMerge :
  DataParts → DataParts → bool → option DataPartsVector.
Variable estimateDiskSpaceForMerge : DataPartsVector → N.
Variable mergeParts : DataPartsVector → Exception + DataPart.

Definition select (aggressive : bool) (w : World) : option DataPartsVector :=
  selectPartsToMerge (active_parts (data (storage w))) (tagged w) aggressive.

(** Modelled from the spec: [StorageMergeTree::merge] (declared at line
    159; its body is not among the sources).  Ask the selector for a
    group; if none, "no work".  Otherwise construct the guard; if that
    fails, "no work".  Run the executor; on success commit the swap.  The
    guard's destructor runs on success and on failure alike; an executor
    failure leaves [merge] as its exception. *)
Definition merge (aggressive : bool) (context : option PoolContext)
    (w : World) : World * (Exception + bool) :=
  match select aggressive w with
  | None => (w, inr false)
  | Some group =>
      match CurrentlyMergingPartsTagger_ctor
              group (estimateDiskSpaceForMerge group) w with
      | (w1, inl _) => (w1, inr false)
      | (w1, inr merging_tagger) =>
          match mergeParts (parts merging_tagger) with
          | inl e => (CurrentlyMergingPartsTagger_dtor merging_tagger w1, inl e)
          | inr new_part =>
              let w2 := with_data w1 (replaceParts (data (storage w1))
                                                   (parts merging_tagger) new_part) in
              (CurrentlyMergingPartsTagger_dtor merging_tagger w2, inr true)
          end
      end
  end.

(** Lines 66-69: [bool optimize() { return merge(true); }], the second
    argument of [merge] taking its default [nullptr]. *)
Definition optimize (w : World) : World * (Exception + bool) :=
  merge true None w.



End Controller.

(** ** The scheduler as a transition system *)

(** A state of a table's merge scheduler: the world and the guards that
    are alive, each under the address of its owner. *)
Record Sched := mkSched {
  world     : World;
  in_flight : gmap nat CurrentlyMergingPartsTagger
}.

Definition initial (s : Sched) : Prop :=
  tagged (world s) = ∅ ∧ in_flight s = ∅.

(** A guard is constructed (and throws or not), a live guard is destroyed,
    or the surroundings move: the part set changes (inserts, commits,
    removal of old parts) or the disk monitor does (other tables). *)
Inductive step : Sched → Sched → Prop :=
  | step_tag w fl k parts_ total_size w' t :
      fl !! k = None →
      CurrentlyMergingPartsTagger_ctor parts_ total_size w = (w', inr t) →
      step (mkSched w fl) (mkSched w' (<[k := t]> fl))
  | step_tag_throws w fl parts_ total_size w' e :
      CurrentlyMergingPartsTagger_ctor parts_ total_size w = (w', inl e) →
      step (mkSched w fl) (mkSched w' fl)
  | step_untag w fl k t :
      fl !! k = Some t →
      step (mkSched w fl)
           (mkSched (CurrentlyMergingPartsTagger_dtor t w) (delete k fl))
  | step_data w fl d :
      step (mkSched w fl) (mkSched (with_data w d) fl)
  | step_disk w fl d :
      step (mkSched w fl) (mkSched (with_disk w d) fl).

Definition reachable (s : Sched) : Prop :=
  ∃ s0, initial s0 ∧ rtc step s0 s.

(** Every live guard's parts are in the set. *)
Definition tags_present (s : Sched) : Prop :=
  ∀ k t p, in_flight s !! k = Some t → p ∈ parts t → p ∈ tagged (world s).

(** A part belongs to at most one live guard. *)
Definition exclusive (s : Sched) : Prop :=
  ∀ k1 k2 t1 t2 p,
    in_flight s !! k1 = Some t1 → in_flight s !! k2 = Some t2 →
    p ∈ parts t1 → p ∈ parts t2 → k1 = k2.

Definition sched_inv (s : Sched) : Prop := tags_present s ∧ exclusive s.

(** Every live guard lists each of its parts once. *)
Definition guards_distinct (s : Sched) : Prop :=
  ∀ k t, in_flight s !! k = Some t → NoDup (parts t).

(** Every part in the set belongs to some live guard. *)
Definition tags_owned (s : Sched) : Prop :=
  ∀ p, p ∈ tagged (world s) →
    ∃ k t, in_flight s !! k = Some t ∧ p ∈ parts t.

(** The runs in which no guard is ever built for a vector that repeats a
    part. *)
Definition distinct_step (s s' : Sched) : Prop :=
  step s s' ∧ guards_distinct s'.

Definition reachable_distinct (s : Sched) : Prop :=
  ∃ s0, initial s0 ∧ rtc distinct_step s0 s.

(** ** A small table to run the definitions on *)

Module Demo.

(** Three parts covering [0,10), [10,20) and [20,25), as in the spec's
    selection scenario. *)
Definition a : DataPart := mkDataPart "19700101_0_9" 0 10 100 10 1 0.
Definition b : DataPart := mkDataPart "19700101_10_19" 10 20 100 10 2 0.
Definition c : DataPart := mkDataPart "19700101_20_24" 20 25 40 5 3 0.
Definition ab : DataPart := mkDataPart "19700101_0_19" 0 20 200 20 4 0.

Definition table_data : MergeTreeData :=
  mkMergeTreeData {[ a := Active; b := Active; c := Active ]} true.

Definition table (cm : DataParts) : StorageMergeTree :=
  mkStorageMergeTree "/data/" "hits" "/data/hits/" table_data cm false.

(** 250 bytes are free under the table's path. *)
Definition monitor (held : gmap nat DiskSpaceMonitor.Reservation)
  : DiskSpaceMonitor.t :=
  DiskSpaceMonitor.mk {[ "/data/hits/" := 250 ]} held.

(** Nothing tagged, nothing reserved. *)
Definition w0 : World := mkWorld (table ∅) (monitor ∅) [].

(** A guard for the group [a; b] is alive and holds 200 bytes. *)
Definition t_ab : CurrentlyMergingPartsTagger := mkTagger [a; b] 0%nat.

Definition w1 : World :=
  mkWorld (table ({[ a ]} ∪ {[ b ]}))
          (monitor {[ 0%nat := DiskSpaceMonitor.mkReservation "/data/hits/" 200 ]})
          [].

Definition s0 : Sched := mkSched w0 ∅.
Definition s1 : Sched := mkSched w1 {[ 7%nat := t_ab ]}.

(** A vector that lists [a] twice. *)
Definition t_aab : CurrentlyMergingPartsTagger := mkTagger [a; a; b] 0%nat.

(** Collaborators: a selector that proposes the first two parts when both
    are Active and untagged, the sum of the sizes as the estimate, an
    executor that succeeds and one that fails. *)
Definition select_ab (active cm : DataParts) (aggressive : bool)
  : option DataPartsVector :=
  if bool_decide (a ∈ active ∧ b ∈ active ∧ (a ∉ cm) ∧ (b ∉ cm))
  then Some [a; b] else None.

Definition estimate (ps : DataPartsVector) : N :=
  foldr (fun p acc => size_in_bytes p + acc) 0 ps.

Definition exec_ok (ps : DataPartsVector) : Exception + DataPart := inr ab.

Definition exec_fails (ps : DataPartsVector) : Exception + DataPart :=
  inl (mkException "Cannot write the merged part" TransientIOFailure).


Definition estimate_small (ps : DataPartsVector) : N := 10.

End Demo.

(** * Properties *)

(** ** The two loops *)

Lemma check_not_tagged_None cm ps :
  check_not_tagged cm ps = None ↔ ∀ p, p ∈ ps → p ∉ cm.
Proof.
  induction ps as [|q ps IH]; simpl.
  - split; [intros _ p Hp; inversion Hp | done].
  - destruct (decide (q ∈ cm)) as [Hq|Hq].
    + split; [done | intros H; exfalso; apply (H q); [left | done]].
    + rewrite IH. split.
      * intros H p Hp. apply elem_of_cons in Hp as [->|Hp]; auto.
      * intros H p Hp. apply H. by right.
Qed.

Lemma check_not_tagged_Some cm ps e :
  check_not_tagged cm ps = Some e →
  code e = LOGICAL_ERROR ∧ ∃ p, p ∈ ps ∧ p ∈ cm.
Proof.
  induction ps as [|q ps IH]; simpl; [done|].
  destruct (decide (q ∈ cm)) as [Hq|Hq].
  - intros [= <-]. split; [done|]. exists q. split; [left | done].
  - intros H. destruct (IH H) as (Hc & p & Hp & Hpc).
    split; [done|]. exists p. split; [by right | done].
Qed.

Lemma check_not_tagged_conflict cm ps p :
  p ∈ ps → p ∈ cm → ∃ e, check_not_tagged cm ps = Some e ∧ code e = LOGICAL_ERROR.
Proof.
  intros Hp Hc. destruct (check_not_tagged cm ps) as [e|] eqn:E.
  - exists e. split; [done|]. by apply check_not_tagged_Some in E as [? _].
  - exfalso. by apply (proj1 (check_not_tagged_None cm ps) E p).
Qed.

(** The loop only ever erases parts of its own vector. *)
Lemma untag_parts_bounds cm ps :
  (untag_parts cm ps).1 ⊆ cm ∧ cm ∖ list_to_set ps ⊆ (untag_parts cm ps).1.
Proof.
  revert cm. induction ps as [|q ps IH]; intros cm; simpl.
  - set_solver.
  - destruct (decide (q ∈ cm)).
    + destruct (IH (cm ∖ {[q]})) as [H1 H2]. set_solver.
    + simpl. set_solver.
Qed.



(** Distinct parts that are all in the set are all erased. *)
Lemma untag_parts_all cm ps :
  NoDup ps → (∀ p, p ∈ ps → p ∈ cm) →
  untag_parts cm ps = (cm ∖ list_to_set ps, None).
Proof.
  revert cm. induction ps as [|q ps IH]; intros cm Hnd Hin; simpl.
  - f_equal. set_solver.
  - apply NoDup_cons in Hnd as [Hq Hnd].
    destruct (decide (q ∈ cm)) as [_|Hn]; [|exfalso; apply Hn, Hin; left].
    rewrite IH; [f_equal; set_solver | done |].
    intros p Hp. apply elem_of_difference. split; [apply Hin; by right|].
    set_solver.
Qed.

(** The loop stops at the first part it does not find: what follows that
    part in the vector plays no role. *)
Lemma untag_parts_stops cm pre p post :
  NoDup pre → (∀ x, x ∈ pre → x ∈ cm) → p ∉ cm ∖ list_to_set pre →
  untag_parts cm (pre ++ p :: post)
  = (cm ∖ list_to_set pre, Some (untag_exception p)).
Proof.
  revert cm. induction pre as [|q pre IH]; intros cm Hnd Hin Hp; simpl.
  - destruct (decide (p ∈ cm)) as [Hc|Hc]; [set_solver|].
    f_equal. set_solver.
  - apply NoDup_cons in Hnd as [Hq Hnd].
    destruct (decide (q ∈ cm)) as [_|Hn]; [|exfalso; apply Hn, Hin; left].
    rewrite IH; [f_equal; set_solver | done | |].
    + intros x Hx. apply elem_of_difference. split; [apply Hin; by right|].
      set_solver.
    + set_solver.
Qed.

(** ** The disk space monitor *)

Lemma reserve_throws d p size e :
  DiskSpaceMonitor.reserve d p size = inl e → code e = InsufficientSpace.
Proof.
  unfold DiskSpaceMonitor.reserve. case_match; [|done]. by intros [= <-].
Qed.

Lemma reserve_fresh d p size h d1 :
  DiskSpaceMonitor.reserve d p size = inr (h, d1) →
  DiskSpaceMonitor.outstanding d !! h = None ∧
  DiskSpaceMonitor.outstanding d1
  = <[h := DiskSpaceMonitor.mkReservation p size]> (DiskSpaceMonitor.outstanding d) ∧
  DiskSpaceMonitor.free_space d1 = DiskSpaceMonitor.free_space d.
Proof.
  unfold DiskSpaceMonitor.reserve. case_match; [done|].
  intros [= <- <-]. simpl. split; [|done].
  apply not_elem_of_dom. unfold DiskSpaceMonitor.new_handle. apply is_fresh.
Qed.

(** Dropping a reservation right after it was taken restores the monitor. *)
Lemma reserve_release d p size h d1 :
  DiskSpaceMonitor.reserve d p size = inr (h, d1) →
  DiskSpaceMonitor.release d1 h = d.
Proof.
  intros H. destruct (reserve_fresh _ _ _ _ _ H) as (Hf & Ho & Hs).
  unfold DiskSpaceMonitor.release. rewrite Ho, Hs, delete_insert_id by done.
  by destruct d.
Qed.

(** ** The constructor and the destructor *)

(** A throw leaves the world as the constructor found it, whichever of the
    two throws it is. *)
Lemma ctor_throws_unchanged ps total w w' e :
  CurrentlyMergingPartsTagger_ctor ps total w = (w', inl e) → w' = w.
Proof.
  unfold CurrentlyMergingPartsTagger_ctor.
  destruct (DiskSpaceMonitor.reserve _ _ _) as [e0|[h d1]] eqn:R.
  - by intros [= <- _].
  - simpl. destruct (check_not_tagged _ _); [|done].
    intros [= <- _]. unfold with_disk; simpl.
    rewrite (reserve_release _ _ _ _ _ R). by destruct w.
Qed.

Lemma ctor_throws_code ps total w w' e :
  CurrentlyMergingPartsTagger_ctor ps total w = (w', inl e) →
  (code e = InsufficientSpace ∧
   DiskSpaceMonitor.reserve (disk w) (full_path (storage w)) total = inl e) ∨
  (code e = LOGICAL_ERROR ∧
   check_not_tagged (tagged w) ps = Some e ∧
   ∃ r, DiskSpaceMonitor.reserve (disk w) (full_path (storage w)) total = inr r).
Proof.
  unfold CurrentlyMergingPartsTagger_ctor.
  destruct (DiskSpaceMonitor.reserve _ _ _) as [e0|[h d1]] eqn:R.
  - intros [= _ <-]. left. split; [by eapply reserve_throws | done].
  - simpl. destruct (check_not_tagged _ _) as [e1|] eqn:C; [|done].
    intros [= _ <-]. right. unfold tagged in *; simpl in *.
    split; [by apply check_not_tagged_Some in C as [? _] | eauto].
Qed.

Lemma ctor_returns ps total w w' t :
  CurrentlyMergingPartsTagger_ctor ps total w = (w', inr t) →
  (∀ p, p ∈ ps → p ∉ tagged w) ∧
  parts t = ps ∧
  tagged w' = tagged w ∪ list_to_set ps ∧
  data (storage w') = data (storage w) ∧
  log w' = log w ∧
  DiskSpaceMonitor.reserve (disk w) (full_path (storage w)) total
  = inr (reserved_space t, disk w').
Proof.
  unfold CurrentlyMergingPartsTagger_ctor.
  destruct (DiskSpaceMonitor.reserve _ _ _) as [e0|[h d1]] eqn:R; [done|].
  simpl. destruct (check_not_tagged _ _) as [e1|] eqn:C; [done|].
  intros [= <- <-]. unfold tagged in *; simpl in *.
  split; [exact (proj1 (check_not_tagged_None _ _) C) | done].
Qed.

Lemma dtor_tagged t w :
  tagged (CurrentlyMergingPartsTagger_dtor t w)
  = (untag_parts (tagged w) (parts t)).1.
Proof.
  unfold CurrentlyMergingPartsTagger_dtor.
  destruct (untag_parts _ _) as [cm [e|]]; reflexivity.
Qed.

Lemma dtor_data t w :
  data (storage (CurrentlyMergingPartsTagger_dtor t w)) = data (storage w).
Proof.
  unfold CurrentlyMergingPartsTagger_dtor.
  destruct (untag_parts _ _) as [cm [e|]]; reflexivity.
Qed.

Lemma dtor_disk t w :
  disk (CurrentlyMergingPartsTagger_dtor t w)
  = DiskSpaceMonitor.release (disk w) (reserved_space t).
Proof.
  unfold CurrentlyMergingPartsTagger_dtor.
  destruct (untag_parts _ _) as [cm [e|]]; reflexivity.
Qed.

Lemma dtor_log t w :
  log (CurrentlyMergingPartsTagger_dtor t w)
  = match (untag_parts (tagged w) (parts t)).2 with
    | Some e => (log w ++ [mkLogEntry "~CurrentlyMergingPartsTagger" e])%list
    | None => log w
    end.
Proof.
  unfold CurrentlyMergingPartsTagger_dtor.
  destruct (untag_parts _ _) as [cm [e|]]; reflexivity.
Qed.

(** ** Invariants of the scheduler *)

Lemma initial_inv s : initial s → sched_inv s.
Proof.
  intros [_ Hfl]. split.
  - intros k t p Hk. rewrite Hfl in Hk. by rewrite lookup_empty in Hk.
  - intros k1 k2 t1 t2 p Hk. rewrite Hfl in Hk. by rewrite lookup_empty in Hk.
Qed.

Lemma step_inv s s' : step s s' → sched_inv s → sched_inv s'.
Proof.
  intros Hstep [Hpres Hexcl]. unfold sched_inv, tags_present, exclusive in *.
  destruct Hstep as [w fl k ps total w' t Hk Hc | w fl ps total w' e Hc
                    | w fl k t Hk | w fl d | w fl d]; cbn [world in_flight] in *.
  - destruct (ctor_returns _ _ _ _ _ Hc) as (Hfree & Hps & Hcm & _).
    split.
    + intros k0 t0 p H0 Hp. rewrite Hcm.
      apply lookup_insert_Some in H0 as [[<- <-]|[Hne H0]].
      * rewrite Hps in Hp. set_solver.
      * apply elem_of_union_l. by eapply Hpres.
    + intros k1 k2 t1 t2 p H1 H2 Hp1 Hp2.
      apply lookup_insert_Some in H1 as [[<- <-]|[Hne1 H1]];
        apply lookup_insert_Some in H2 as [[<- <-]|[Hne2 H2]]; try done.
      * exfalso. rewrite Hps in Hp1. apply (Hfree p Hp1). by eapply Hpres.
      * exfalso. rewrite Hps in Hp2. apply (Hfree p Hp2). by eapply Hpres.
      * by eapply Hexcl.
  - apply ctor_throws_unchanged in Hc as ->. done.
  - split.
    + intros k0 t0 p H0 Hp. rewrite dtor_tagged.
      apply lookup_delete_Some in H0 as [Hne H0].
      apply (proj2 (untag_parts_bounds (tagged w) (parts t))).
      apply elem_of_difference. split; [by eapply Hpres|].
      rewrite elem_of_list_to_set. intros Hpt.
      apply Hne. by eapply Hexcl.
    + intros k1 k2 t1 t2 p H1 H2.
      apply lookup_delete_Some in H1 as [_ H1].
      apply lookup_delete_Some in H2 as [_ H2]. by eapply Hexcl.
  - done.
  - done.
Qed.

Lemma reachable_inv s : reachable s → sched_inv s.
Proof.
  intros (s0 & Hinit & Hsteps). apply initial_inv in Hinit.
  induction Hsteps as [s|s1 s2 s3 Hstep _ IH]; [done|].
  apply IH. by eapply step_inv.
Qed.

Lemma demo_s1_reachable : reachable Demo.s1.
Proof.
  exists Demo.s0. split; [done|].
  apply rtc_once.
  change Demo.s1 with (mkSched Demo.w1 (<[7%nat := Demo.t_ab]> ∅)).
  by apply (step_tag Demo.w0 ∅ 7%nat [Demo.a; Demo.b] 200).
Qed.

(** * The claims *)

(** ** C1: exclusivity of tagging *)

(** C1 (as amended).  In every reachable state of the scheduler a part
    belongs to at most one live guard.  Constructing a guard for a group
    that contains a part already in the currently-merging set always fails
    and leaves the world as it was; the failure is LOGICAL_ERROR exactly
    when the reservation, which is requested first, is granted, and
    InsufficientSpace otherwise.  Hence every step, tagging included, keeps
    the exclusivity. *)
Theorem tagging_is_exclusive (s : Sched) :
  reachable s →
  exclusive s ∧
  (∀ ps total p, p ∈ ps → p ∈ tagged (world s) →
     ∃ e, CurrentlyMergingPartsTagger_ctor ps total (world s) = (world s, inl e) ∧
          (code e = LOGICAL_ERROR ∨ code e = InsufficientSpace) ∧
          (code e = LOGICAL_ERROR ↔
           ∃ r, DiskSpaceMonitor.reserve (disk (world s))
                  (full_path (storage (world s))) total = inr r)) ∧
  (∀ s', step s s' → exclusive s').
Proof.
  intros Hr. pose proof (reachable_inv s Hr) as Hinv.
  split; [apply Hinv|]. split.
  - intros ps total p Hp Hc.
    destruct (CurrentlyMergingPartsTagger_ctor ps total (world s))
      as [w' [e|t]] eqn:E.
    + pose proof (ctor_throws_unchanged _ _ _ _ _ E) as ->.
      exists e. split; [done|].
      destruct (ctor_throws_code _ _ _ _ _ E) as [[Hcode Hres]|(Hcode & _ & r & Hres)].
      * split; [by right|]. rewrite Hcode, Hres.
        split; [done | by intros [r ?]].
      * split; [by left|]. split; [by exists r | done].
    + exfalso. destruct (ctor_returns _ _ _ _ _ E) as (Hfree & _).
      by apply (Hfree p).
  - intros s' Hstep. by apply (step_inv s s' Hstep).
Qed.

Lemma tagging_is_exclusive_witness :
  reachable Demo.s1 ∧ exclusive Demo.s1.
Proof.
  split; [apply demo_s1_reachable|].
  exact (proj1 (tagging_is_exclusive Demo.s1 demo_s1_reachable)).
Defined.

(** C1, as stated, fails: in the reachable state [Demo.s1] the part [a] is
    tagged and 200 of the 250 free bytes are held, so a guard for [a; c]
    asking for 60 bytes fails at the reservation, with InsufficientSpace
    and not with LOGICAL_ERROR. *)
Lemma tagging_conflict_without_space :
  reachable Demo.s1 ∧
  Demo.a ∈ [Demo.a; Demo.c] ∧
  Demo.a ∈ tagged (world Demo.s1) ∧
  ¬ ∃ w' e, CurrentlyMergingPartsTagger_ctor [Demo.a; Demo.c] 60 (world Demo.s1)
            = (w', inl e) ∧ code e = LOGICAL_ERROR.
Proof.
  split; [apply demo_s1_reachable|]. split; [left|]. split.
  - unfold tagged; simpl. set_solver.
  - intros (w' & e & H & Hcode).
    assert (code e = InsufficientSpace) as Hc.
    { apply (f_equal snd) in H. vm_compute in H. by injection H as <-. }
    congruence.
Qed.

(** ** C3: a refused reservation *)

(** C3.  The constructor asks for the reservation before it looks at the
    set.  If the reservation is refused the exception is InsufficientSpace,
    the constructor throws it and leaves the world untouched, whatever the
    group (nothing tagged, nothing held), and [merge], having selected that
    group, returns "no work" with the world untouched. *)
Theorem refused_reservation_aborts
    (selectPartsToMerge : DataParts → DataParts → bool → option DataPartsVector)
    (estimateDiskSpaceForMerge : DataPartsVector → N)
    (mergeParts : DataPartsVector → Exception + DataPart)
    (ps : DataPartsVector) (total : N) (w : World) (e : Exception) :
  DiskSpaceMonitor.reserve (disk w) (full_path (storage w)) total = inl e →
  code e = InsufficientSpace ∧
  CurrentlyMergingPartsTagger_ctor ps total w = (w, inl e) ∧
  (∀ aggressive context,
     select selectPartsToMerge aggressive w = Some ps →
     estimateDiskSpaceForMerge ps = total →
     merge selectPartsToMerge estimateDiskSpaceForMerge mergeParts
           aggressive context w = (w, inr false)).
Proof.
  intros Hres. split; [by eapply reserve_throws|].
  assert (CurrentlyMergingPartsTagger_ctor ps total w = (w, inl e)) as Hctor.
  { unfold CurrentlyMergingPartsTagger_ctor. by rewrite Hres. }
  split; [done|].
  intros aggressive context Hsel Hest. unfold merge.
  by rewrite Hsel, Hest, Hctor.
Qed.

Lemma refused_reservation_aborts_witness :
  CurrentlyMergingPartsTagger_ctor [Demo.c] 60 Demo.w1
  = (Demo.w1,
     inl (mkException "Not enough free disk space to reserve on /data/hits/"
                      InsufficientSpace)).
Proof.
  apply (refused_reservation_aborts Demo.select_ab Demo.estimate Demo.exec_ok
           [Demo.c] 60 Demo.w1).
  reflexivity.
Defined.

(** ** C9: a conflict found after the reservation was granted *)

(** C9.  If the reservation is granted and some part of the group is
    already in the currently-merging set, the constructor throws
    LOGICAL_ERROR, the one the checking loop raises, and the world it leaves
    is the world it found: the set is as it was, no part of the group having
    been inserted, and the reservation taken is dropped again, its handle
    being outstanding neither before nor after. *)
Theorem conflict_releases_reservation
    (ps : DataPartsVector) (total : N) (w : World)
    (h : DiskSpaceMonitor.ReservationPtr) (d1 : DiskSpaceMonitor.t) (p : DataPart) :
  DiskSpaceMonitor.reserve (disk w) (full_path (storage w)) total = inr (h, d1) →
  p ∈ ps → p ∈ tagged w →
  ∃ e w',
    CurrentlyMergingPartsTagger_ctor ps total w = (w', inl e) ∧
    code e = LOGICAL_ERROR ∧
    check_not_tagged (tagged w) ps = Some e ∧
    w' = w ∧
    tagged w' = tagged w ∧
    DiskSpaceMonitor.outstanding d1 !! h
    = Some (DiskSpaceMonitor.mkReservation (full_path (storage w)) total) ∧
    DiskSpaceMonitor.outstanding (disk w') !! h = None ∧
    disk w' = DiskSpaceMonitor.release d1 h.
Proof.
  intros Hres Hp Hc.
  destruct (check_not_tagged_conflict _ _ _ Hp Hc) as (e & Hchk & Hcode).
  destruct (reserve_fresh _ _ _ _ _ Hres) as (Hfresh & Hout & _).
  exists e, w.
  split.
  { unfold CurrentlyMergingPartsTagger_ctor. rewrite Hres. simpl.
    change (tagged (with_disk w d1)) with (tagged w). rewrite Hchk.
    unfold with_disk; simpl. rewrite (reserve_release _ _ _ _ _ Hres).
    by destruct w. }
  repeat split; try done.
  - rewrite Hout. apply lookup_insert_eq.
  - by rewrite (reserve_release _ _ _ _ _ Hres).
Qed.

Lemma conflict_releases_reservation_witness :
  ∃ e w',
    CurrentlyMergingPartsTagger_ctor [Demo.c; Demo.a] 50 Demo.w1 = (w', inl e) ∧
    code e = LOGICAL_ERROR ∧ w' = Demo.w1.
Proof.
  destruct (conflict_releases_reservation [Demo.c; Demo.a] 50 Demo.w1 1%nat
              (Demo.monitor
                 (<[1%nat := DiskSpaceMonitor.mkReservation "/data/hits/" 50]>
                    {[ 0%nat := DiskSpaceMonitor.mkReservation "/data/hits/" 200 ]}))
              Demo.a)
    as (e & w' & H1 & H2 & _ & H3 & _).
  - reflexivity.
  - right; left.
  - unfold tagged; simpl. set_solver.
  - by exists e, w'.
Defined.

(** ** C10: the destructor stops erasing at the first missing part *)

(** C10.  Let the guard's vector be [pre ++ p :: post], the parts of [pre]
    being erased one after the other and [p] being the first part the
    destructor does not find in the set.  Then exactly the parts of [pre]
    are erased: every other part of the set, those of [post] included,
    stays in it.  The exception is written to the log and goes no further,
    and the reservation is dropped all the same. *)
Theorem dtor_stops_at_first_missing
    (t : CurrentlyMergingPartsTagger) (w : World)
    (pre post : DataPartsVector) (p : DataPart) :
  parts t = pre ++ p :: post →
  NoDup pre → (∀ x, x ∈ pre → x ∈ tagged w) →
  p ∉ tagged w ∖ list_to_set pre →
  let w' := CurrentlyMergingPartsTagger_dtor t w in
  tagged w' = tagged w ∖ list_to_set pre ∧
  (∀ q, q ∈ post → q ∈ tagged w → q ∉ pre → q ∈ tagged w') ∧
  log w' = (log w ++ [mkLogEntry "~CurrentlyMergingPartsTagger" (untag_exception p)])%list ∧
  code (untag_exception p) = LOGICAL_ERROR ∧
  disk w' = DiskSpaceMonitor.release (disk w) (reserved_space t) ∧
  DiskSpaceMonitor.outstanding (disk w') !! reserved_space t = None ∧
  data (storage w') = data (storage w).
Proof.
  intros Hparts Hnd Hin Hp w'. subst w'.
  pose proof (untag_parts_stops (tagged w) pre p post Hnd Hin Hp) as Hloop.
  rewrite <- Hparts in Hloop.
  rewrite dtor_tagged, dtor_log, dtor_disk, dtor_data, Hloop. simpl.
  repeat split; try done.
  - intros q _ Hq Hnpre. apply elem_of_difference.
    split; [done|]. by rewrite elem_of_list_to_set.
  - apply lookup_delete_eq.
Qed.

Lemma dtor_stops_at_first_missing_witness :
  tagged (CurrentlyMergingPartsTagger_dtor Demo.t_aab Demo.w1)
  = tagged Demo.w1 ∖ list_to_set [Demo.a].
Proof.
  apply (dtor_stops_at_first_missing Demo.t_aab Demo.w1 [Demo.a] [Demo.b] Demo.a).
  - reflexivity.
  - apply NoDup_singleton.
  - intros x Hx. apply list_elem_of_singleton in Hx as ->.
    unfold tagged; simpl. set_solver.
  - set_solver.
Defined.

(** A vector that lists a part twice is accepted by the constructor, and
    is the one way a live guard meets a missing part: the destructor erases
    [a], misses it the second time and leaves [b] tagged. *)
Example demo_repeated_part :
  CurrentlyMergingPartsTagger_ctor [Demo.a; Demo.a; Demo.b] 200 Demo.w0
  = (Demo.w1, inr Demo.t_aab) ∧
  tagged (CurrentlyMergingPartsTagger_dtor Demo.t_aab Demo.w1) = {[ Demo.b ]} ∧
  log (CurrentlyMergingPartsTagger_dtor Demo.t_aab Demo.w1)
  = [mkLogEntry "~CurrentlyMergingPartsTagger" (untag_exception Demo.a)].
Proof. repeat split; reflexivity. Qed.

(** ** C4: what the destructor does *)



(** ** The part set and the commit *)

Lemma elem_of_active_parts d p :
  p ∈ active_parts d ↔ all_parts d !! p = Some Active.
Proof.
  unfold active_parts. rewrite elem_of_dom. split.
  - intros [st Hst]. apply map_lookup_filter_Some in Hst as [Hl Hs].
    simpl in Hs. by subst.
  - intros Hl. exists Active. by apply map_lookup_filter_Some.
Qed.


Lemma with_data_same w : with_data w (data (storage w)) = w.
Proof. by destruct w as [[] ? ?]. Qed.

(** A guard built for distinct parts and destroyed again, the part set
    having moved to [d] meanwhile, leaves the world it was built in, up to
    that move. *)
Lemma ctor_then_dtor ps total w w1 t d :
  CurrentlyMergingPartsTagger_ctor ps total w = (w1, inr t) →
  NoDup ps →
  CurrentlyMergingPartsTagger_dtor t (with_data w1 d) = with_data w d.
Proof.
  unfold CurrentlyMergingPartsTagger_ctor.
  destruct (DiskSpaceMonitor.reserve _ _ _) as [e0|[h d1]] eqn:R; [done|].
  simpl. change (tagged (with_disk w d1)) with (tagged w).
  destruct (check_not_tagged _ _) as [e1|] eqn:C; [done|].
  intros [= <- <-] Hnd.
  pose proof (proj1 (check_not_tagged_None _ _) C) as Hfree.
  unfold CurrentlyMergingPartsTagger_dtor.
  change (tagged (with_data _ d)) with (tagged w ∪ list_to_set ps).
  simpl parts. rewrite untag_parts_all; [| done | set_solver].
  assert ((tagged w ∪ list_to_set ps) ∖ list_to_set ps = tagged w) as ->
    by set_solver.
  unfold with_disk, with_data, with_currently_merging, tagged; simpl.
  rewrite (reserve_release _ _ _ _ _ R).
  by destruct w as [[] ? ?].
Qed.

(** ** C2: merge is all or nothing *)

Section MergeStep.

Variable selectPartsToMerge :
  DataParts → DataParts → bool → option DataPartsVector.
Variable estimateDiskSpaceForMerge : DataPartsVector → N.
Variable mergeParts : DataPartsVector → Exception + DataPart.

Local Abbreviation merge' :=
  (merge selectPartsToMerge estimateDiskSpaceForMerge mergeParts).
Local Abbreviation select' := (select selectPartsToMerge).

(** What [merge] returns, by cases on what its three steps do. *)
Lemma merge_cases aggressive context w :
  (select' aggressive w = None ∧ merge' aggressive context w = (w, inr false)) ∨
  (∃ group e,
     select' aggressive w = Some group ∧
     CurrentlyMergingPartsTagger_ctor group (estimateDiskSpaceForMerge group) w
     = (w, inl e) ∧
     merge' aggressive context w = (w, inr false)) ∨
  (∃ group w1 t,
     select' aggressive w = Some group ∧
     CurrentlyMergingPartsTagger_ctor group (estimateDiskSpaceForMerge group) w
     = (w1, inr t) ∧
     ((∃ e, mergeParts group = inl e ∧
            merge' aggressive context w
            = (CurrentlyMergingPartsTagger_dtor t w1, inl e)) ∨
      (∃ new_part, mergeParts group = inr new_part ∧
            merge' aggressive context w
            = (CurrentlyMergingPartsTagger_dtor t
                 (with_data w1 (replaceParts (data (storage w1)) group new_part)),
               inr true)))).
Proof.
  unfold merge.
  destruct (select' aggressive w) as [group|] eqn:S; [|by left].
  right.
  destruct (CurrentlyMergingPartsTagger_ctor _ _ _) as [w1 [e|t]] eqn:C.
  - left. exists group, e.
    pose proof (ctor_throws_unchanged _ _ _ _ _ C) as ->. done.
  - right. exists group, w1, t.
    destruct (ctor_returns _ _ _ _ _ C) as (_ & -> & _).
    split; [done|]. split; [done|].
    destruct (mergeParts group) as [e|new_part]; [left|right]; eauto.
Qed.


(** ** C7: no group, no work *)

(** C7.  When the selector finds no group, [merge] returns "no work" and
    the world, and with it the part set and the currently-merging set, is
    exactly the one before the call. *)
Theorem merge_without_group aggressive context w :
  select' aggressive w = None →
  merge' aggressive context w = (w, inr false) ∧
  data (storage (merge' aggressive context w).1) = data (storage w) ∧
  tagged (merge' aggressive context w).1 = tagged w.
Proof.
  intros Hsel. unfold merge. by rewrite Hsel.
Qed.

(** ** C6: optimize *)

(** C6.  [optimize] is [merge] with [aggressive = true] and no pool
    context, run as a plain call: same world afterwards, same result.  The
    result is [true] exactly when a merge occurred, that is when a group
    was selected, its guard built and the executor's part committed. *)
Theorem optimize_is_aggressive_merge w :
  optimize selectPartsToMerge estimateDiskSpaceForMerge mergeParts w
  = merge' true None w ∧
  ((optimize selectPartsToMerge estimateDiskSpaceForMerge mergeParts w).2
   = inr true ↔
   ∃ group w1 t new_part,
     select' true w = Some group ∧
     CurrentlyMergingPartsTagger_ctor group (estimateDiskSpaceForMerge group) w
     = (w1, inr t) ∧
     mergeParts group = inr new_part ∧
     (optimize selectPartsToMerge estimateDiskSpaceForMerge mergeParts w).1
     = CurrentlyMergingPartsTagger_dtor t
         (with_data w1 (replaceParts (data (storage w1)) group new_part))).
Proof.
  split; [reflexivity|]. unfold optimize.
  destruct (merge_cases true None w)
    as [[Hsel ->] | [(group & e & Hsel & Hc & ->) | (group & w1 & t & Hsel & Hc & Hexec)]];
    simpl.
  - split; [done|]. intros (g & ? & ? & ? & Hg & _). congruence.
  - split; [done|]. intros (g & ? & ? & ? & Hg & Hc' & _).
    rewrite Hsel in Hg. injection Hg as <-. congruence.
  - destruct Hexec as [(e & Hexec & ->) | (new_part & Hexec & ->)]; simpl.
    + split; [done|]. intros (g & ? & ? & n & Hg & _ & Hn & _).
      rewrite Hsel in Hg. injection Hg as <-. congruence.
    + split; [|done]. intros _. by exists group, w1, t, new_part.
Qed.

End MergeStep.



(** Why the two conditions of C2 are there.  A selector that repeats a part
    makes the destructor stop early, so after a failed execution the part
    set is unchanged but [b] stays tagged; an executor that hands back one
    of its inputs leaves that input Active after the commit. *)
Example demo_merge_repeated_part :
  tagged (merge (fun _ _ _ => Some [Demo.a; Demo.a; Demo.b]) Demo.estimate_small
            Demo.exec_fails false None Demo.w0).1
  = {[ Demo.b ]}.
Proof. reflexivity. Qed.

Example demo_merge_output_is_input :
  all_parts (data (storage
    (merge Demo.select_ab Demo.estimate (fun _ => inr Demo.a) false None Demo.w0).1))
  !! Demo.a = Some Active.
Proof. reflexivity. Qed.

(** The two runs of the table of [Demo]: with the executor that succeeds
    the swap is committed, with the one that fails the world is the one
    before the call and the exception leaves [merge]. *)
Example demo_merge_commits :
  merge Demo.select_ab Demo.estimate Demo.exec_ok true None Demo.w0
  = (with_data Demo.w0
       (replaceParts Demo.table_data [Demo.a; Demo.b] Demo.ab),
     inr true).
Proof. reflexivity. Qed.

Example demo_merge_fails :
  merge Demo.select_ab Demo.estimate Demo.exec_fails false None Demo.w0
  = (Demo.w0, inl (mkException "Cannot write the merged part" TransientIOFailure)).
Proof. reflexivity. Qed.

Lemma merge_without_group_witness :
  merge Demo.select_ab Demo.estimate Demo.exec_ok false None Demo.w1
  = (Demo.w1, inr false).
Proof.
  apply (merge_without_group Demo.select_ab Demo.estimate Demo.exec_ok
           false None Demo.w1).
  reflexivity.
Defined.

(** ** C8: canMergeParts *)

(** C8.  [canMergeParts left right] is true iff [right] begins where
    [left] ends, neither part is in the currently-merging set and, when
    partitioning is enabled, both have the same partition key.  It is false
    whenever there is a gap between the two ranges, whenever they overlap,
    and whenever one of the two parts is tagged. *)
Theorem canMergeParts_spec (w : World) (left right : DataPart) :
  (canMergeParts w left right = true ↔
   range_end left = range_begin right ∧
   (left ∉ tagged w) ∧ (right ∉ tagged w) ∧
   (partitioning_enabled (data (storage w)) = true →
    partition_key left = partition_key right)) ∧
  (range_gap left right → canMergeParts w left right = false) ∧
  (range_overlap left right → canMergeParts w left right = false) ∧
  (left ∈ tagged w ∨ right ∈ tagged w → canMergeParts w left right = false).
Proof.
  assert (canMergeParts w left right = true ↔
          range_end left = range_begin right ∧
          (left ∉ tagged w) ∧ (right ∉ tagged w) ∧
          (partitioning_enabled (data (storage w)) = true →
           partition_key left = partition_key right)) as Hiff.
  { unfold canMergeParts. rewrite !andb_true_iff, !bool_decide_eq_true.
    destruct (partitioning_enabled (data (storage w)));
      rewrite ?bool_decide_eq_true; naive_solver. }
  split; [exact Hiff|].
  unfold range_gap, range_overlap.
  repeat split; intros Hcase; apply not_true_is_false; intros Htrue;
    apply Hiff in Htrue as (Hadj & Hl & Hr & _).
  - lia.
  - lia.
  - by destruct Hcase.
Qed.

Lemma canMergeParts_spec_witness :
  canMergeParts Demo.w0 Demo.a Demo.b = true ∧
  canMergeParts Demo.w0 Demo.a Demo.c = false ∧
  canMergeParts Demo.w0 Demo.ab Demo.b = false ∧
  canMergeParts Demo.w1 Demo.b Demo.c = false.
Proof.
  split; [|split; [|split]].
  - apply (proj1 (canMergeParts_spec Demo.w0 Demo.a Demo.b)).
    unfold tagged; simpl. repeat split; set_solver.
  - apply (proj1 (proj2 (canMergeParts_spec Demo.w0 Demo.a Demo.c))).
    unfold range_gap; simpl. lia.
  - apply (proj1 (proj2 (proj2 (canMergeParts_spec Demo.w0 Demo.ab Demo.b)))).
    unfold range_overlap; simpl. lia.
  - apply (proj2 (proj2 (proj2 (canMergeParts_spec Demo.w1 Demo.b Demo.c)))).
    left. unfold tagged; simpl. set_solver.
Defined.

(** * Further properties of the guard *)

(** ** The constructor tags all parts or none *)

(** The constructor returns a guard exactly when the reservation is granted
    and no part of the vector is in the set.  Then the guard holds the
    vector as given and the set has grown by all of its parts; otherwise
    the world is the one the constructor found.  No run inserts only some
    of the parts. *)
Theorem ctor_tags_all_or_none (ps : DataPartsVector) (total : N) (w : World) :
  ((∃ w' t, CurrentlyMergingPartsTagger_ctor ps total w = (w', inr t)) ↔
   (∃ r, DiskSpaceMonitor.reserve (disk w) (full_path (storage w)) total = inr r) ∧
   ∀ p, p ∈ ps → p ∉ tagged w) ∧
  ((∃ e, CurrentlyMergingPartsTagger_ctor ps total w = (w, inl e)) ∨
   (∃ w' t, CurrentlyMergingPartsTagger_ctor ps total w = (w', inr t) ∧
            parts t = ps ∧
            tagged w' = tagged w ∪ list_to_set ps ∧
            storage w' = storage (with_currently_merging w (tagged w ∪ list_to_set ps)) ∧
            log w' = log w)).
Proof.
  destruct (CurrentlyMergingPartsTagger_ctor ps total w) as [w' [e|t]] eqn:E.
  - pose proof (ctor_throws_unchanged _ _ _ _ _ E) as ->.
    split; [|left; by exists e].
    split; [by intros (? & ? & ?)|].
    intros [[r Hr] Hfree]. exfalso.
    destruct (ctor_throws_code _ _ _ _ _ E) as [[_ Hres]|(_ & Hchk & _)].
    + congruence.
    + apply check_not_tagged_Some in Hchk as (_ & p & Hp & Hc).
      by apply (Hfree p).
  - destruct (ctor_returns _ _ _ _ _ E) as (Hfree & Hps & Hcm & Hdata & Hlog & Hres).
    split.
    + split; [|by intros _; exists w', t].
      intros _. split; [by eexists | done].
    + right. exists w', t. repeat split; try done.
      revert E. unfold CurrentlyMergingPartsTagger_ctor.
      destruct (DiskSpaceMonitor.reserve _ _ _) as [?|[h d1]]; [done|]. simpl.
      destruct (check_not_tagged _ _); [done|]. by intros [= <- _].
Qed.

(** ** Which part the constructor's exception names *)

(** With the reservation granted, the parts of [pre] untagged and [p] the
    first part of the vector that is in the set, the exception is the one
    of line 118 for [p], whatever follows [p] in the vector. *)
Theorem ctor_reports_first_conflict
    (pre post : DataPartsVector) (p : DataPart) (total : N) (w : World)
    (r : DiskSpaceMonitor.ReservationPtr * DiskSpaceMonitor.t) :
  DiskSpaceMonitor.reserve (disk w) (full_path (storage w)) total = inr r →
  (∀ x, x ∈ pre → x ∉ tagged w) →
  p ∈ tagged w →
  CurrentlyMergingPartsTagger_ctor (pre ++ p :: post) total w
  = (w, inl (tag_exception p)).
Proof.
  intros Hres Hpre Hp.
  assert (check_not_tagged (tagged w) (pre ++ p :: post) = Some (tag_exception p))
    as Hchk.
  { induction pre as [|x pre IH]; simpl.
    - by rewrite decide_True.
    - rewrite decide_False by (apply Hpre; left).
      apply IH. intros y Hy. apply Hpre. by right. }
  destruct (CurrentlyMergingPartsTagger_ctor (pre ++ p :: post) total w)
    as [w' [e|t]] eqn:E.
  - pose proof (ctor_throws_unchanged _ _ _ _ _ E) as ->.
    destruct (ctor_throws_code _ _ _ _ _ E) as [[_ Hres']|(_ & Hchk' & _)];
      congruence.
  - exfalso. destruct (ctor_returns _ _ _ _ _ E) as (Hfree & _).
    apply (Hfree p); [|done]. apply elem_of_app. right. left.
Qed.

Lemma ctor_reports_first_conflict_witness :
  CurrentlyMergingPartsTagger_ctor ([Demo.c] ++ Demo.b :: [Demo.a]) 50 Demo.w1
  = (Demo.w1, inl (tag_exception Demo.b)).
Proof.
  apply (ctor_reports_first_conflict [Demo.c] [Demo.a] Demo.b 50 Demo.w1
           (1%nat,
            Demo.monitor
              (<[1%nat := DiskSpaceMonitor.mkReservation "/data/hits/" 50]>
                 {[ 0%nat := DiskSpaceMonitor.mkReservation "/data/hits/" 200 ]}))).
  - reflexivity.
  - intros x Hx. apply list_elem_of_singleton in Hx as ->.
    apply bool_decide_unpack with (dec := not_dec (decide (Demo.c ∈ tagged Demo.w1))).
    by vm_compute.
  - apply bool_decide_unpack with (dec := decide (Demo.b ∈ tagged Demo.w1)).
    by vm_compute.
Defined.

(** ** The empty vector *)

(** The constructor does not refuse an empty vector: once the reservation is
    granted it returns a guard that tags nothing yet holds the reservation,
    and the destructor of such a guard, run in any world, erases nothing and
    logs nothing. *)
Theorem empty_guard (total : N) (w : World)
    (h : DiskSpaceMonitor.ReservationPtr) (d1 : DiskSpaceMonitor.t) :
  DiskSpaceMonitor.reserve (disk w) (full_path (storage w)) total = inr (h, d1) →
  CurrentlyMergingPartsTagger_ctor [] total w = (with_disk w d1, inr (mkTagger [] h)) ∧
  ∀ w2, CurrentlyMergingPartsTagger_dtor (mkTagger [] h) w2
        = with_disk w2 (DiskSpaceMonitor.release (disk w2) h).
Proof.
  intros Hres. split.
  - unfold CurrentlyMergingPartsTagger_ctor. rewrite Hres. simpl.
    f_equal. unfold with_currently_merging, with_disk, tagged; simpl.
    rewrite union_empty_r_L. by destruct w as [[] ? ?].
  - intros w2. unfold CurrentlyMergingPartsTagger_dtor; simpl.
    unfold with_currently_merging, with_disk, tagged; simpl.
    by destruct w2 as [[] ? ?].
Qed.

Lemma empty_guard_witness :
  CurrentlyMergingPartsTagger_ctor [] 50 Demo.w1
  = (with_disk Demo.w1
       (Demo.monitor
          (<[1%nat := DiskSpaceMonitor.mkReservation "/data/hits/" 50]>
             {[ 0%nat := DiskSpaceMonitor.mkReservation "/data/hits/" 200 ]})),
     inr (mkTagger [] 1%nat)).
Proof.
  apply (empty_guard 50 Demo.w1 1%nat). reflexivity.
Defined.

(** ** What the destructor leaves alone *)

Lemma dtor_keeps_rest (t : CurrentlyMergingPartsTagger) (w : World) :
  let w' := CurrentlyMergingPartsTagger_dtor t w in
  (∀ q, q ∈ tagged w' → q ∈ tagged w) ∧
  (∀ q, q ∉ parts t → q ∈ tagged w → q ∈ tagged w') ∧
  storage w' = storage (with_currently_merging w (tagged w')) ∧
  DiskSpaceMonitor.free_space (disk w') = DiskSpaceMonitor.free_space (disk w) ∧
  (∀ h, h ≠ reserved_space t →
     DiskSpaceMonitor.outstanding (disk w') !! h
     = DiskSpaceMonitor.outstanding (disk w) !! h).
Proof.
  intros w'. subst w'.
  destruct (untag_parts_bounds (tagged w) (parts t)) as [Hsub Hkeep].
  rewrite dtor_tagged. split; [|split; [|split; [|split]]].
  - intros q Hq. by apply Hsub.
  - intros q Hq Hin. apply Hkeep. apply elem_of_difference.
    split; [done|]. by rewrite elem_of_list_to_set.
  - unfold CurrentlyMergingPartsTagger_dtor.
    destruct (untag_parts _ _) as [cm [e|]]; reflexivity.
  - by rewrite dtor_disk.
  - intros h Hne. rewrite dtor_disk. simpl. by apply lookup_delete_ne.
Qed.

(** Whatever the guard and the world, the destructor adds no part to the
    set, keeps every part that is not in the guard's vector, leaves the
    table's other members as they are, and in the monitor touches only the
    guard's own reservation. *)
Theorem dtor_frame (t : CurrentlyMergingPartsTagger) (w : World) :
  let w' := CurrentlyMergingPartsTagger_dtor t w in
  (∀ q, q ∈ tagged w' → q ∈ tagged w) ∧
  (∀ q, q ∉ parts t → q ∈ tagged w → q ∈ tagged w') ∧
  storage w' = storage (with_currently_merging w (tagged w')) ∧
  DiskSpaceMonitor.free_space (disk w') = DiskSpaceMonitor.free_space (disk w) ∧
  (∀ h, h ≠ reserved_space t →
     DiskSpaceMonitor.outstanding (disk w') !! h
     = DiskSpaceMonitor.outstanding (disk w) !! h).
Proof. exact (dtor_keeps_rest t w). Qed.

Lemma dtor_frame_witness :
  Demo.b ∈ tagged (CurrentlyMergingPartsTagger_dtor (mkTagger [Demo.a] 3%nat) Demo.w1).
Proof.
  apply (proj1 (proj2 (dtor_frame (mkTagger [Demo.a] 3%nat) Demo.w1))).
  - apply bool_decide_unpack with (dec := not_dec (decide (Demo.b ∈ [Demo.a]))).
    by vm_compute.
  - apply bool_decide_unpack with (dec := decide (Demo.b ∈ tagged Demo.w1)).
    by vm_compute.
Defined.

(** ** Construction followed by destruction *)

(** A guard built for a vector of distinct parts and destroyed again gives
    back the world it was built in: the set, the monitor and the log are the
    same.  The same holds up to the part set when the part set was replaced
    in between. *)
Theorem ctor_dtor_round_trip
    (ps : DataPartsVector) (total : N) (w w1 : World)
    (t : CurrentlyMergingPartsTagger) :
  CurrentlyMergingPartsTagger_ctor ps total w = (w1, inr t) →
  NoDup ps →
  CurrentlyMergingPartsTagger_dtor t w1 = w ∧
  ∀ d, CurrentlyMergingPartsTagger_dtor t (with_data w1 d) = with_data w d.
Proof.
  intros Hc Hnd. split; [|intros d; by eapply ctor_then_dtor].
  destruct (ctor_returns _ _ _ _ _ Hc) as (_ & _ & _ & Hdata & _).
  rewrite <- (with_data_same w1), (ctor_then_dtor _ _ _ _ _ _ Hc Hnd).
  by rewrite Hdata, with_data_same.
Qed.

Lemma ctor_dtor_round_trip_witness :
  CurrentlyMergingPartsTagger_dtor Demo.t_ab Demo.w1 = Demo.w0.
Proof.
  apply (ctor_dtor_round_trip [Demo.a; Demo.b] 200 Demo.w0 Demo.w1 Demo.t_ab).
  - reflexivity.
  - apply bool_decide_unpack with (dec := NoDup_dec _). by vm_compute.
Defined.

(** ** Destroying a guard twice *)

(** If the parts of a non-empty guard are distinct and all in the set, the
    first run of the destructor erases them and logs nothing; a second run
    finds the first part of the vector missing, erases nothing and logs the
    exception of line 131 for that part. *)
Theorem second_destruction_is_logged
    (t : CurrentlyMergingPartsTagger) (w : World)
    (p : DataPart) (rest : DataPartsVector) :
  parts t = p :: rest →
  NoDup (parts t) →
  (∀ x, x ∈ parts t → x ∈ tagged w) →
  let w1 := CurrentlyMergingPartsTagger_dtor t w in
  let w2 := CurrentlyMergingPartsTagger_dtor t w1 in
  tagged w1 = tagged w ∖ list_to_set (parts t) ∧
  log w1 = log w ∧
  tagged w2 = tagged w1 ∧
  log w2 = log w ++ [mkLogEntry "~CurrentlyMergingPartsTagger" (untag_exception p)].
Proof.
  intros Hparts Hnd Hin w1 w2. subst w1 w2.
  rewrite !dtor_tagged, !dtor_log, !dtor_tagged.
  rewrite (untag_parts_all _ _ Hnd Hin). simpl.
  split; [done|]. split; [done|].
  rewrite Hparts. simpl.
  rewrite decide_False by set_solver. done.
Qed.

Lemma second_destruction_is_logged_witness :
  log (CurrentlyMergingPartsTagger_dtor Demo.t_ab
         (CurrentlyMergingPartsTagger_dtor Demo.t_ab Demo.w1))
  = [mkLogEntry "~CurrentlyMergingPartsTagger" (untag_exception Demo.a)].
Proof.
  apply (second_destruction_is_logged Demo.t_ab Demo.w1 Demo.a [Demo.b]).
  - reflexivity.
  - apply bool_decide_unpack with (dec := NoDup_dec _). by vm_compute.
  - intros x Hx.
    apply elem_of_cons in Hx as [->|Hx]; [|apply list_elem_of_singleton in Hx as ->].
    + apply bool_decide_unpack with (dec := decide (Demo.a ∈ tagged Demo.w1)).
      by vm_compute.
    + apply bool_decide_unpack with (dec := decide (Demo.b ∈ tagged Demo.w1)).
      by vm_compute.
Defined.

(** ** A vector that repeats a part *)

(** The constructor checks the vector against the set as it was before any
    insert, so a vector that lists a part twice passes.  If [p] is the first
    repeated part, [pre] being what precedes its second occurrence, the
    destructor run on the world the constructor left stops there: the parts
    of [pre] are erased, the parts of [post] that are not in [pre] stay
    tagged though no guard is left to erase them, and the exception of line
    131 for [p] is logged. *)
Theorem repeated_part_leaks_tags
    (pre post : DataPartsVector) (p : DataPart) (total : N) (w w1 : World)
    (t : CurrentlyMergingPartsTagger) :
  CurrentlyMergingPartsTagger_ctor (pre ++ p :: post) total w = (w1, inr t) →
  NoDup pre → p ∈ pre →
  let w' := CurrentlyMergingPartsTagger_dtor t w1 in
  tagged w' = tagged w ∪ (list_to_set post ∖ list_to_set pre) ∧
  log w' = log w ++ [mkLogEntry "~CurrentlyMergingPartsTagger" (untag_exception p)].
Proof.
  intros Hc Hnd Hp w'. subst w'.
  destruct (ctor_returns _ _ _ _ _ Hc) as (Hfree & Hps & Hcm & _ & Hlog & _).
  rewrite dtor_tagged, dtor_log, Hps, Hcm, Hlog.
  rewrite untag_parts_stops; [simpl | done | |].
  - split; [|done].
    apply set_eq. intros x. rewrite list_to_set_app_L, list_to_set_cons.
    specialize (Hfree x). rewrite elem_of_app, elem_of_cons in Hfree.
    set_unfold. destruct (decide (x ∈ pre)); naive_solver.
  - intros x Hx. rewrite list_to_set_app_L. set_solver.
  - set_solver.
Qed.

Lemma repeated_part_leaks_tags_witness :
  tagged (CurrentlyMergingPartsTagger_dtor Demo.t_aab Demo.w1)
  = tagged Demo.w0 ∪ (list_to_set [Demo.b] ∖ list_to_set [Demo.a]).
Proof.
  apply (repeated_part_leaks_tags [Demo.a] [Demo.b] Demo.a 200 Demo.w0 Demo.w1
           Demo.t_aab).
  - reflexivity.
  - apply NoDup_singleton.
  - left.
Defined.

(** ** Invariants over the runs of the scheduler *)

(** While a guard is alive its parts stay in the set, whatever other guards
    are built or destroyed meanwhile; so no guard can be built for a group
    that shares a part with a live guard: the constructor throws and leaves
    the world as it is. *)
Theorem live_tags_are_present (s : Sched) :
  reachable s →
  tags_present s ∧
  ∀ k t p ps total,
    in_flight s !! k = Some t → p ∈ parts t → p ∈ ps →
    ∃ e, CurrentlyMergingPartsTagger_ctor ps total (world s) = (world s, inl e).
Proof.
  intros Hr. destruct (reachable_inv s Hr) as [Hpres _].
  split; [done|].
  intros k t p ps total Hk Hpt Hps.
  destruct (CurrentlyMergingPartsTagger_ctor ps total (world s))
    as [w' [e|t']] eqn:E.
  - pose proof (ctor_throws_unchanged _ _ _ _ _ E) as ->. by exists e.
  - exfalso. destruct (ctor_returns _ _ _ _ _ E) as (Hfree & _).
    apply (Hfree p Hps). by eapply Hpres.
Qed.

Lemma live_tags_are_present_witness :
  reachable Demo.s1 ∧ tags_present Demo.s1.
Proof.
  split; [apply demo_s1_reachable|].
  exact (proj1 (live_tags_are_present Demo.s1 demo_s1_reachable)).
Defined.

Lemma distinct_step_inv s s' :
  distinct_step s s' →
  sched_inv s ∧ guards_distinct s ∧ tags_owned s →
  sched_inv s' ∧ guards_distinct s' ∧ tags_owned s'.
Proof.
  intros [Hstep Hdist'] (Hinv & Hdist & Hown).
  split; [by eapply step_inv|]. split; [done|].
  destruct Hinv as [Hpres Hexcl].
  unfold tags_owned, tags_present, exclusive, guards_distinct in *.
  destruct Hstep as [w fl k ps total w' t Hk Hc | w fl ps total w' e Hc
                    | w fl k t Hk | w fl d | w fl d]; cbn [world in_flight] in *.
  - destruct (ctor_returns _ _ _ _ _ Hc) as (_ & Hps & Hcm & _).
    intros p Hp. rewrite Hcm in Hp. apply elem_of_union in Hp as [Hp|Hp].
    + destruct (Hown p Hp) as (k0 & t0 & Hk0 & Hpt).
      exists k0, t0. split; [|done].
      rewrite lookup_insert_ne; [done | congruence].
    + exists k, t. rewrite lookup_insert_eq, Hps.
      split; [done|]. by apply elem_of_list_to_set in Hp.
  - by apply ctor_throws_unchanged in Hc as ->.
  - intros p Hp. rewrite dtor_tagged in Hp.
    rewrite untag_parts_all in Hp; [| by eapply Hdist | by intros x; apply (Hpres k t)].
    simpl in Hp. apply elem_of_difference in Hp as [Hp Hnot].
    rewrite elem_of_list_to_set in Hnot.
    destruct (Hown p Hp) as (k0 & t0 & Hk0 & Hpt).
    exists k0, t0. split; [|done].
    rewrite lookup_delete_ne; [done|]. intros <-. congruence.
  - done.
  - done.
Qed.

Lemma reachable_distinct_inv s :
  reachable_distinct s → sched_inv s ∧ guards_distinct s ∧ tags_owned s.
Proof.
  intros (s0 & Hinit & Hsteps).
  assert (sched_inv s0 ∧ guards_distinct s0 ∧ tags_owned s0) as H0.
  { split; [by apply initial_inv|]. destruct Hinit as [Hcm Hfl]. split.
    - intros k t Hk. rewrite Hfl in Hk. by rewrite lookup_empty in Hk.
    - intros p Hp. rewrite Hcm in Hp. by apply not_elem_of_empty in Hp. }
  clear Hinit. induction Hsteps as [s|s1 s2 s3 Hstep _ IH]; [done|].
  apply IH. by eapply distinct_step_inv.
Qed.

(** As long as guards are built for vectors of distinct parts only, the
    set holds exactly the parts of the live guards: no tag outlives its
    guard, and with no guard alive the set is empty. *)
Theorem no_tag_outlives_its_guard (s : Sched) :
  reachable_distinct s →
  (∀ p, p ∈ tagged (world s) ↔
        ∃ k t, in_flight s !! k = Some t ∧ p ∈ parts t) ∧
  (in_flight s = ∅ → tagged (world s) = ∅).
Proof.
  intros Hr. destruct (reachable_distinct_inv s Hr) as ([Hpres _] & _ & Hown).
  split.
  - intros p. split; [apply Hown|].
    intros (k & t & Hk & Hp). by eapply Hpres.
  - intros Hnone. apply set_eq. intros p. split.
    + intros Hp. destruct (Hown p Hp) as (k & t & Hk & _).
      rewrite Hnone in Hk. by rewrite lookup_empty in Hk.
    + intros Hp. by apply not_elem_of_empty in Hp.
Qed.

Lemma demo_s1_reachable_distinct : reachable_distinct Demo.s1.
Proof.
  exists Demo.s0. split; [done|].
  apply rtc_once. split.
  - change Demo.s1 with (mkSched Demo.w1 (<[7%nat := Demo.t_ab]> ∅)).
    by apply (step_tag Demo.w0 ∅ 7%nat [Demo.a; Demo.b] 200).
  - intros k t Hk. cbn [Demo.s1 in_flight] in Hk.
    apply lookup_singleton_Some in Hk as [_ <-].
    apply bool_decide_unpack with (dec := NoDup_dec _). by vm_compute.
Qed.

Lemma no_tag_outlives_its_guard_witness :
  Demo.a ∈ tagged (world Demo.s1) ↔
  ∃ k t, in_flight Demo.s1 !! k = Some t ∧ Demo.a ∈ parts t.
Proof.
  exact (proj1 (no_tag_outlives_its_guard Demo.s1 demo_s1_reachable_distinct)
               Demo.a).
Defined.

(** ** The order of the vector *)

(** Whether the constructor succeeds, and the world it then leaves, do not
    depend on the order of the parts in the vector: if it returns a guard
    for [ps] it returns one for every permutation of [ps], with the same
    reservation and the same world. *)
Theorem ctor_ignores_order
    (ps ps' : DataPartsVector) (total : N) (w w1 : World)
    (t : CurrentlyMergingPartsTagger) :
  CurrentlyMergingPartsTagger_ctor ps total w = (w1, inr t) →
  ps ≡ₚ ps' →
  CurrentlyMergingPartsTagger_ctor ps' total w
  = (w1, inr (mkTagger ps' (reserved_space t))).
Proof.
  unfold CurrentlyMergingPartsTagger_ctor.
  destruct (DiskSpaceMonitor.reserve _ _ _) as [e0|[h d1]]; [done|]. simpl.
  destruct (check_not_tagged _ ps) as [e1|] eqn:C; [done|].
  intros [= <- <-] Hperm. simpl.
  assert (check_not_tagged (tagged (with_disk w d1)) ps' = None) as ->.
  { apply check_not_tagged_None. intros p Hp.
    apply (proj1 (check_not_tagged_None _ _) C). by rewrite Hperm. }
  by rewrite (list_to_set_perm_L ps ps' Hperm).
Qed.

Lemma ctor_ignores_order_witness :
  CurrentlyMergingPartsTagger_ctor [Demo.b; Demo.a] 200 Demo.w0
  = (Demo.w1, inr (mkTagger [Demo.b; Demo.a] 0%nat)).
Proof.
  apply (ctor_ignores_order [Demo.a; Demo.b] [Demo.b; Demo.a] 200 Demo.w0
           Demo.w1 Demo.t_ab).
  - reflexivity.
  - apply perm_swap.
Defined.

(** ** Destroying two guards in either order *)

Lemma untag_parts_disjoint cm (X : DataParts) ps :
  (∀ p, p ∈ ps → p ∉ X) →
  untag_parts (cm ∖ X) ps
  = ((untag_parts cm ps).1 ∖ X, (untag_parts cm ps).2).
Proof.
  revert cm. induction ps as [|q ps IH]; intros cm Hdisj; simpl; [done|].
  assert (q ∉ X) as Hq by (apply Hdisj; left).
  destruct (decide (q ∈ cm)) as [Hin|Hin].
  - rewrite decide_True by set_solver.
    assert ((cm ∖ X) ∖ {[q]} = (cm ∖ {[q]}) ∖ X) as -> by set_solver.
    apply IH. intros p Hp. apply Hdisj. by right.
  - by rewrite decide_False by set_solver.
Qed.

Lemma untag_parts_erased cm ps :
  ∃ E : DataParts,
    (∀ x, x ∈ E → x ∈ ps) ∧ (untag_parts cm ps).1 = cm ∖ E.
Proof.
  revert cm. induction ps as [|q ps IH]; intros cm; simpl.
  - exists ∅. split; [set_solver|]. set_solver.
  - destruct (decide (q ∈ cm)) as [Hin|Hin].
    + destruct (IH (cm ∖ {[q]})) as (E & HE & ->).
      exists ({[q]} ∪ E). split; [|set_solver].
      intros x Hx. apply elem_of_union in Hx as [Hx|Hx].
      * apply elem_of_singleton in Hx as ->. left.
      * right. by apply HE.
    + exists ∅. split; [set_solver|]. simpl. set_solver.
Qed.

(** Two guards with no part in common can be destroyed in either order:
    the set, the part set and the monitor end the same, each destructor
    erasing and reporting what it would have alone; only the order of the
    entries they may add to the log differs. *)
Theorem dtors_commute (t1 t2 : CurrentlyMergingPartsTagger) (w : World) :
  (∀ p, p ∈ parts t1 → p ∉ parts t2) →
  let w12 := CurrentlyMergingPartsTagger_dtor t2 (CurrentlyMergingPartsTagger_dtor t1 w) in
  let w21 := CurrentlyMergingPartsTagger_dtor t1 (CurrentlyMergingPartsTagger_dtor t2 w) in
  storage w12 = storage w21 ∧
  disk w12 = disk w21 ∧
  log w12 ≡ₚ log w21 ∧
  tagged w12 = (untag_parts (tagged w) (parts t1)).1 ∩ (untag_parts (tagged w) (parts t2)).1.
Proof.
  intros Hdisj w12 w21. subst w12 w21.
  destruct (untag_parts_erased (tagged w) (parts t1)) as (E1 & HE1 & Hcm1).
  destruct (untag_parts_erased (tagged w) (parts t2)) as (E2 & HE2 & Hcm2).
  assert (untag_parts (tagged (CurrentlyMergingPartsTagger_dtor t1 w)) (parts t2)
          = ((untag_parts (tagged w) (parts t2)).1 ∖ E1,
             (untag_parts (tagged w) (parts t2)).2)) as H12.
  { rewrite dtor_tagged, Hcm1. apply untag_parts_disjoint.
    intros p Hp HpE. apply (Hdisj p); [by apply HE1 | done]. }
  assert (untag_parts (tagged (CurrentlyMergingPartsTagger_dtor t2 w)) (parts t1)
          = ((untag_parts (tagged w) (parts t1)).1 ∖ E2,
             (untag_parts (tagged w) (parts t1)).2)) as H21.
  { rewrite dtor_tagged, Hcm2. apply untag_parts_disjoint.
    intros p Hp HpE. apply (Hdisj p); [done | by apply HE2]. }
  assert (tagged (CurrentlyMergingPartsTagger_dtor t2 (CurrentlyMergingPartsTagger_dtor t1 w))
          = tagged (CurrentlyMergingPartsTagger_dtor t1 (CurrentlyMergingPartsTagger_dtor t2 w)))
    as Htag.
  { rewrite (dtor_tagged t2), (dtor_tagged t1 (CurrentlyMergingPartsTagger_dtor t2 w)).
    rewrite H12, H21, Hcm1, Hcm2. simpl. set_solver. }
  split; [|split; [|split]].
  - pose proof (dtor_keeps_rest t2 (CurrentlyMergingPartsTagger_dtor t1 w)) as (_ & _ & Hs12 & _).
    pose proof (dtor_keeps_rest t1 (CurrentlyMergingPartsTagger_dtor t2 w)) as (_ & _ & Hs21 & _).
    pose proof (dtor_keeps_rest t1 w) as (_ & _ & Hs1 & _).
    pose proof (dtor_keeps_rest t2 w) as (_ & _ & Hs2 & _).
    rewrite Hs12, Hs21, Htag. unfold with_currently_merging; simpl.
    rewrite Hs1, Hs2. reflexivity.
  - rewrite !dtor_disk. unfold DiskSpaceMonitor.release; simpl.
    f_equal. apply delete_delete.
  - rewrite (dtor_log t2), (dtor_log t1 (CurrentlyMergingPartsTagger_dtor t2 w)).
    rewrite H12, H21, !dtor_log. simpl.
    destruct ((untag_parts (tagged w) (parts t1)).2) as [e1|];
      destruct ((untag_parts (tagged w) (parts t2)).2) as [e2|]; try done.
    rewrite <- !app_assoc. apply Permutation_app_head. simpl. apply perm_swap.
  - rewrite (dtor_tagged t2), H12, Hcm1, Hcm2. simpl.
    apply set_eq. intros x. set_unfold. naive_solver.
Qed.

Lemma dtors_commute_witness :
  tagged (CurrentlyMergingPartsTagger_dtor (mkTagger [Demo.b] 1%nat)
            (CurrentlyMergingPartsTagger_dtor (mkTagger [Demo.a] 0%nat) Demo.w1))
  = (untag_parts (tagged Demo.w1) [Demo.a]).1 ∩ (untag_parts (tagged Demo.w1) [Demo.b]).1.
Proof.
  apply (dtors_commute (mkTagger [Demo.a] 0%nat) (mkTagger [Demo.b] 1%nat) Demo.w1).
  intros p Hp. apply list_elem_of_singleton in Hp as ->.
  apply bool_decide_unpack with (dec := not_dec (decide (Demo.a ∈ [Demo.b]))).
  by vm_compute.
Defined.

(** ** A tag without a guard *)

Lemma step_keeps_orphan_tag s s' p :
  step s s' →
  p ∈ tagged (world s) ∧ (∀ k t, in_flight s !! k = Some t → p ∉ parts t) →
  p ∈ tagged (world s') ∧ (∀ k t, in_flight s' !! k = Some t → p ∉ parts t).
Proof.
  intros Hstep [Hp Hnone].
  destruct Hstep as [w fl k ps total w' t Hk Hc | w fl ps total w' e Hc
                    | w fl k t Hk | w fl d | w fl d]; cbn [world in_flight] in *.
  - destruct (ctor_returns _ _ _ _ _ Hc) as (Hfree & Hps & Hcm & _).
    split; [rewrite Hcm; by apply elem_of_union_l|].
    intros k0 t0 Hk0. apply lookup_insert_Some in Hk0 as [[<- <-]|[_ Hk0]].
    + rewrite Hps. intros Hin. by apply (Hfree p).
    + by eapply Hnone.
  - by apply ctor_throws_unchanged in Hc as ->.
  - split.
    + apply (proj1 (proj2 (dtor_keeps_rest t w))); [by eapply Hnone | done].
    + intros k0 t0 Hk0. apply lookup_delete_Some in Hk0 as [_ Hk0].
      by eapply Hnone.
  - done.
  - done.
Qed.

(** A part that is in the set while no live guard lists it stays in the set
    through every run of the scheduler: no constructor can take it, every
    destructor erases parts of its own vector only, and nothing else writes
    the set.  Every later attempt to build a guard for a group containing
    it throws. *)
Theorem orphan_tag_is_permanent (s s' : Sched) (p : DataPart) :
  rtc step s s' →
  p ∈ tagged (world s) →
  (∀ k t, in_flight s !! k = Some t → p ∉ parts t) →
  p ∈ tagged (world s') ∧
  (∀ k t, in_flight s' !! k = Some t → p ∉ parts t) ∧
  ∀ ps total, p ∈ ps →
    ∃ e, CurrentlyMergingPartsTagger_ctor ps total (world s') = (world s', inl e).
Proof.
  intros Hsteps Hp Hnone.
  assert (p ∈ tagged (world s') ∧
          (∀ k t, in_flight s' !! k = Some t → p ∉ parts t)) as [Hp' Hnone'].
  { induction Hsteps as [s|s1 s2 s3 Hstep _ IH]; [done|].
    destruct (step_keeps_orphan_tag _ _ p Hstep (conj Hp Hnone)) as [? ?].
    by apply IH. }
  split; [done|]. split; [done|].
  intros ps total Hps.
  destruct (CurrentlyMergingPartsTagger_ctor ps total (world s'))
    as [w' [e|t']] eqn:E.
  - pose proof (ctor_throws_unchanged _ _ _ _ _ E) as ->. by exists e.
  - exfalso. destruct (ctor_returns _ _ _ _ _ E) as (Hfree & _).
    by apply (Hfree p Hps).
Qed.

Lemma orphan_tag_is_permanent_witness :
  Demo.b ∈ tagged (world
    (mkSched (CurrentlyMergingPartsTagger_dtor
                (mkTagger [Demo.a] 1%nat)
                (CurrentlyMergingPartsTagger_dtor Demo.t_aab Demo.w1)) ∅)).
Proof.
  apply (orphan_tag_is_permanent
           (mkSched (CurrentlyMergingPartsTagger_dtor Demo.t_aab Demo.w1)
                    {[ 3%nat := mkTagger [Demo.a] 1%nat ]})
           (mkSched (CurrentlyMergingPartsTagger_dtor
                       (mkTagger [Demo.a] 1%nat)
                       (CurrentlyMergingPartsTagger_dtor Demo.t_aab Demo.w1))
                    (delete 3%nat {[ 3%nat := mkTagger [Demo.a] 1%nat ]}))
           Demo.b).
  - apply rtc_once. apply step_untag. reflexivity.
  - apply bool_decide_unpack
      with (dec := decide (Demo.b ∈ tagged (CurrentlyMergingPartsTagger_dtor Demo.t_aab Demo.w1))).
    by vm_compute.
  - intros k t Hk. cbn [in_flight] in Hk.
    apply lookup_singleton_Some in Hk as [_ <-].
    apply bool_decide_unpack with (dec := not_dec (decide (Demo.b ∈ [Demo.a]))).
    by vm_compute.
Defined.
